(** * The endpoints watcher of the k8s resolver (pkg/resolvers/k8s/watcher.go)

    A shallow embedding of [subsetToAddresses], [watcher.next],
    [watcher.Next] and [watcher.Close], followed by the properties of the
    watcher core: address resolution per subset, the add/delete diff against
    the last known address set, and the terminal behaviour of errors. *)

From Stdlib Require Import ZArith Ascii DecimalString.
From stdpp Require Import gmap strings list sets.

Open Scope string_scope.
#[local] Set Warnings "-clear-no-such-hyp".

(** ** Go library functions used by the watcher *)

(** Go's [error] values, as far as the watcher builds them. [nil] is [None]
    in [option error]. *)
Inductive error : Type :=
| Canceled                                (* context.Canceled *)
| External (descr : string)               (* an error made outside this file *)
| Errorf (msg : string)                   (* errors.Errorf(msg) *)
| Wrapped (cause : error) (msg : string). (* errors.Wrap(cause, msg), cause non-nil *)

(** [errors.Wrap] returns nil when the wrapped error is nil. *)
Definition errors_Wrap (e : option error) (msg : string) : option error :=
  match e with
  | None => None
  | Some cause => Some (Wrapped cause msg)
  end.

(** [strconv.Itoa]: the decimal text of an integer. *)
Definition Itoa (i : Z) : string := NilZero.string_of_int (Z.to_int i).

(** [strings.IndexByte(s, c) >= 0]. *)
Fixpoint containsByte (c : Ascii.ascii) (s : string) : bool :=
  match s with
  | EmptyString => false
  | String d s' => if decide (d = c) then true else containsByte c s'
  end.

(** [net.JoinHostPort]: a host with a colon (a literal IPv6 address) is put
    in square brackets. *)
Definition JoinHostPort (host port : string) : string :=
  if containsByte ":"%char host
  then "[" +:+ host +:+ "]:" +:+ port
  else host +:+ ":" +:+ port.

(** [google.golang.org/grpc/naming]: the updates handed to the balancer.
    [Metadata] is an [interface{}]; the watcher stores either the map value
    [struct{}{}] or nil in it. *)
Module naming.

Inductive Operation : Type := Add | Delete.

Record Update : Type := mkUpdate {
  Op : Operation;
  Addr : string;
  Metadata : option unit
}.

End naming.

(** A function call either returns or panics. *)
Inductive outcome (A : Type) : Type :=
| Return (a : A)
| Panic.
Arguments Return {A} a.
Arguments Panic {A}.

(** ** The data of watcher.go *)

Record metadata : Type := {
  Name_ : string;
  ResourceVersion : string
}.

Record address : Type := { IP : string }.

Record port : Type := {
  Name : string;
  Port : Z
}.

Record subset : Type := {
  Addresses : list address;
  Ports : list port
}.

Record endpoints : Type := {
  Kind : string;
  APIVersion : string;
  Metadata : metadata;
  Subsets : list subset;
  Status : string;
  Message : string;
  Code : Z
}.

(** Modelled from the spec: the type [event] is declared outside watcher.go;
    a change event is a snapshot of the full subset list of the watched
    service, which [watcher.next] reads as [event.Object.Subsets]. *)
Record event : Type := { Object : endpoints }.

(** Modelled from the spec: [targetPort] and [targetEntry] are declared
    outside watcher.go. The target port is unset, named or a numeric
    literal; [subsetToAddresses] reads the fields [isNamed] and [value] of
    [t.port] and compares [t.port] with the constant [noTargetPort]. The
    field [port] of [targetEntry] is [target_port] here, since [port] is the
    subset port type. *)
Record targetPort : Type := {
  isNamed : bool;
  value : string
}.

Record targetEntry : Type := { target_port : targetPort }.

#[global] Instance targetPort_eq_dec : EqDecision targetPort.
Proof. solve_decision. Defined.

Record watchResult : Type := {
  ep : option event;
  err : option error
}.

(** [ctx] and [cancel] come from [context.WithCancel(context.Background())]:
    the only thing that ever changes about them is whether [cancel] has
    run, and [ctx.Err()] is [context.Canceled] from then on. The channel
    [watchChange] belongs to the event source; what a receive on it yields
    is an input of [next]. The Go map [lastUpdates] is a set of strings. *)
Record watcher : Type := {
  cancelled : bool;
  target : targetEntry;
  lastUpdates : gset string
}.

Definition ctx_Err (w : watcher) : option error :=
  if cancelled w then Some Canceled else None.

(** What the [select] of [next] takes: [ctx.Done()], ready once [cancel] has
    run (before the call, or from another goroutine while the call is
    blocked), or a value received from [watchChange]. *)
Inductive selected : Type :=
| ctxDone
| received (r : watchResult).

(** The order in which a [range] loop visits the keys of a map is not
    specified in Go: it is an input too, one per loop. *)
Definition rangeOrder : Type := gset string → list string.

Definition validRange (rng : rangeOrder) : Prop :=
  ∀ m, rng m ≡ₚ elements m.

Record choices : Type := {
  sel : selected;
  rangeUpdated : rangeOrder;  (* for addr, md := range updatedEndpoints *)
  rangeLast : rangeOrder      (* for addr := range w.lastUpdates *)
}.

Definition validChoices (c : choices) : Prop :=
  validRange (rangeUpdated c) ∧ validRange (rangeLast c).

Definition msgStopped : string :=
  "k8sresolver: watcher.Next already stopped or Next returned error already. Note that watcher errors are not recoverable.".
Definition msgStream : string := "k8sresolver: error on reading event stream".
Definition msgConvert : string :=
  "k8sresolver: failed to convert k8s endpoint subset to update Addr".
Definition msgNoPort : string := "retrieved subset update contains no port".

Section Watcher.

(** The constant [noTargetPort] is declared outside watcher.go: the code is
    verified for any value of it. *)
Variable noTargetPort : targetPort.

(** The loop of the named branch: [port] keeps its value when no name
    matches. *)
Fixpoint namedPort (name : string) (ps : list port) (port : string) : string :=
  match ps with
  | [] => port
  | p :: ps' =>
      if decide (Name p = name) then Itoa (Port p) else namedPort name ps' port
  end.

Definition subsetToAddresses (t : targetEntry) (sub : subset)
  : list string * option error :=
  match Ports sub with
  | [] => ([], Some (Errorf msgNoPort))
  | p0 :: _ =>
      let port :=
        if decide (target_port t = noTargetPort) then Itoa (Port p0)
        else if isNamed (target_port t)
             then namedPort (value (target_port t)) (Ports sub) ""
             else value (target_port t) in
      ((λ a, JoinHostPort (IP a) port) <$> Addresses sub, None)
  end.

(** [Close] cancels the context; cancelling twice is cancelling once. *)
Definition Close (w : watcher) : watcher :=
  {| cancelled := true; target := target w; lastUpdates := lastUpdates w |}.

(** The first loop of [next], over [event.Object.Subsets]: it stops at the
    first subset that fails to convert. *)
Fixpoint collectEndpoints (t : targetEntry) (subs : list subset)
    (updatedEndpoints : gset string) : gset string * option error :=
  match subs with
  | [] => (updatedEndpoints, None)
  | sub :: subs' =>
      match subsetToAddresses t sub with
      | (_, Some e) => (updatedEndpoints, Some e)
      | (updatedAddresses, None) =>
          collectEndpoints t subs'
            (foldl (λ m a, {[a]} ∪ m) updatedEndpoints updatedAddresses)
      end
  end.

Definition addUpdate (addr : string) : naming.Update :=
  naming.mkUpdate naming.Add addr (Some ()).

Definition deleteUpdate (addr : string) : naming.Update :=
  naming.mkUpdate naming.Delete addr None.

(** The two loops that build [updates]. *)
Definition diffUpdates (c : choices) (last updatedEndpoints : gset string)
  : list naming.Update :=
  (addUpdate <$>
     filter (λ addr, addr ∉ last) (rangeUpdated c updatedEndpoints))
  ++ (deleteUpdate <$>
        filter (λ addr, addr ∉ updatedEndpoints) (rangeLast c last)).

Definition next (w : watcher) (c : choices)
  : outcome (list naming.Update * option error * watcher) :=
  match sel c with
  | ctxDone =>
      let w := Close w in
      Return ([], ctx_Err w, w)
  | received r =>
      match err r with
      | Some e => Return ([], errors_Wrap (Some e) msgStream, w)
      | None =>
          match ep r with
          | None => Panic   (* event = *r.ep with r.ep nil *)
          | Some event =>
              match collectEndpoints (target w) (Subsets (Object event)) ∅ with
              | (_, Some e) =>
                  Return ([], errors_Wrap (Some e) msgConvert, w)
              | (updatedEndpoints, None) =>
                  Return (diffUpdates c (lastUpdates w) updatedEndpoints,
                          None,
                          {| cancelled := cancelled w;
                             target := target w;
                             lastUpdates := updatedEndpoints |})
              end
          end
      end
  end.

Definition Next (w : watcher) (c : choices)
  : outcome (list naming.Update * option error * watcher) :=
  match ctx_Err w with
  | Some e => Return ([], errors_Wrap (Some e) msgStopped, w)
  | None =>
      match next w c with
      | Panic => Panic
      | Return (u, None, w') => Return (u, None, w')
      | Return (u, Some e, w') => Return (u, Some e, Close w')
      end
  end.

(** [startNewWatcher]; [startErr] is what
    [startWatchingEndpointsChanges] returns. *)
Definition startNewWatcher (tgt : targetEntry) (startErr : option error)
  : option watcher * option error :=
  match startErr with
  | Some e => (None, Some e)
  | None =>
      (Some {| cancelled := false; target := tgt; lastUpdates := ∅ |}, None)
  end.

(** ** Sequences of calls *)

(** What the consumer and the supervising goroutine do to a watcher. *)
Inductive op : Type :=
| callNext (c : choices)
| callClose.

(** Runs the calls in order and collects what each [Next] returned. *)
Fixpoint run (w : watcher) (ops : list op)
  : outcome (list (list naming.Update * option error) * watcher) :=
  match ops with
  | [] => Return ([], w)
  | callClose :: ops' => run (Close w) ops'
  | callNext c :: ops' =>
      match Next w c with
      | Panic => Panic
      | Return (u, e, w') =>
          match run w' ops' with
          | Panic => Panic
          | Return (rs, w'') => Return ((u, e) :: rs, w'')
          end
      end
  end.

(** What [Next] returns on a watcher that has stopped. *)
Definition stoppedResult : list naming.Update * option error :=
  ([], Some (Wrapped Canceled msgStopped)).

Fixpoint countNext (ops : list op) : nat :=
  match ops with
  | [] => 0
  | callNext _ :: ops' => S (countNext ops')
  | callClose :: ops' => countNext ops'
  end.

(** ** The vocabulary of the specification *)

(** The error kinds of [Next], told apart by the way the code builds them. *)
Definition AlreadyStoppedError (e : error) : Prop :=
  ∃ cause, e = Wrapped cause msgStopped.
Definition CancelledError (e : error) : Prop := e = Canceled.
Definition EventStreamError (e : error) : Prop :=
  ∃ cause, e = Wrapped cause msgStream.
Definition NoPortError (e : error) : Prop :=
  e = Wrapped (Errorf msgNoPort) msgConvert.

(** A watcher is Active until its context is cancelled, Stopped after. *)
Definition Active (w : watcher) : Prop := cancelled w = false.
Definition Stopped (w : watcher) : Prop := cancelled w = true.

(** A delivered change event: a receive that carries an event and no
    error. *)
Definition delivers (c : choices) (ev : event) : Prop :=
  sel c = received {| ep := Some ev; err := None |}.

(** The address set of a change event: the union over its subsets of the
    addresses each subset resolves to. *)
Definition resolved (t : targetEntry) (subs : list subset) : gset string :=
  ⋃ ((λ sub, list_to_set (subsetToAddresses t sub).1) <$> subs).

Definition eventAddresses (t : targetEntry) (ev : event) : gset string :=
  resolved t (Subsets (Object ev)).

(** What a change event resolves to: its address set, or nothing when one
    of its subsets has no port. *)
Definition hasPorts (sub : subset) : bool :=
  match Ports sub with
  | [] => false
  | _ :: _ => true
  end.

Definition resolution (t : targetEntry) (ev : event) : option (gset string) :=
  if forallb hasPorts (Subsets (Object ev))
  then Some (eventAddresses t ev)
  else None.

(** The address set of the last change event of a run that [Next] processed
    without error, [acc] when there is none; [rs] are the results of the
    [Next] calls of [ops]. *)
Fixpoint lastProcessed (t : targetEntry) (acc : gset string)
    (ops : list op) (rs : list (list naming.Update * option error))
  : gset string :=
  match ops, rs with
  | callClose :: ops', _ => lastProcessed t acc ops' rs
  | callNext c :: ops', (_, None) :: rs' =>
      match sel c with
      | received {| ep := Some ev |} =>
          lastProcessed t (eventAddresses t ev) ops' rs'
      | _ => lastProcessed t acc ops' rs'
      end
  | callNext c :: ops', (_, Some _) :: rs' => lastProcessed t acc ops' rs'
  | _, _ => acc
  end.

(** ** Sample inputs *)

Definition zeroPort : targetPort := {| isNamed := false; value := "" |}.
Definition grpcTarget : targetEntry :=
  {| target_port := {| isNamed := true; value := "grpc" |} |}.
Definition unsetTarget : targetEntry := {| target_port := zeroPort |}.

Definition mkEvent (subs : list subset) : event :=
  {| Object := {| Kind := "Endpoints"; APIVersion := "v1";
                  Metadata := {| Name_ := "svc"; ResourceVersion := "1" |};
                  Subsets := subs; Status := ""; Message := ""; Code := 0 |} |}.

Definition httpSubset (ips : list string) : subset :=
  {| Addresses := (λ ip, {| IP := ip |}) <$> ips;
     Ports := [ {| Name := "http"; Port := 80 |} ] |}.

Definition noPortSubset : subset :=
  {| Addresses := [ {| IP := "10.0.0.9" |} ]; Ports := [] |}.

(** A receive of [ev], with both maps visited in the order of [elements]. *)
Definition deliver (ev : event) : choices :=
  {| sel := received {| ep := Some ev; err := None |};
     rangeUpdated := elements; rangeLast := elements |}.

Definition observeDone : choices :=
  {| sel := ctxDone; rangeUpdated := elements; rangeLast := elements |}.

Definition freshWatcher (t : targetEntry) : watcher :=
  {| cancelled := false; target := t; lastUpdates := ∅ |}.

(** An Active watcher whose last change event resolved to [addrs]. *)
Definition watching (t : targetEntry) (addrs : list string) : watcher :=
  {| cancelled := false; target := t; lastUpdates := list_to_set addrs |}.

(** ** The consumer of the updates *)

(** What a consumer of [naming.Update] does with its address set: an [Add]
    puts the address in, a [Delete] takes it out; a batch is applied in the
    order of the slice. *)
Definition applyUpdate (s : gset string) (u : naming.Update) : gset string :=
  match naming.Op u with
  | naming.Add => {[naming.Addr u]} ∪ s
  | naming.Delete => s ∖ {[naming.Addr u]}
  end.

Definition applyBatch (s : gset string) (us : list naming.Update)
  : gset string :=
  foldl applyUpdate s us.

(** Every [range] order of the calls of a run is a permutation of the keys. *)
Definition validOps (ops : list op) : Prop :=
  Forall (λ o, match o with
               | callNext c => validChoices c
               | callClose => True
               end) ops.

(** More sample inputs. *)
Definition literalTarget : targetEntry :=
  {| target_port := {| isNamed := false; value := "8443" |} |}.

Definition grpcSubset (ips : list string) : subset :=
  {| Addresses := (λ ip, {| IP := ip |}) <$> ips;
     Ports := [ {| Name := "http"; Port := 80 |};
                {| Name := "grpc"; Port := 9090 |};
                {| Name := "grpc"; Port := 9091 |} ] |}.

Definition streamFails (ev : option event) (e : error) : choices :=
  {| sel := received {| ep := ev; err := Some e |};
     rangeUpdated := elements; rangeLast := elements |}.

Definition nilResult : choices :=
  {| sel := received {| ep := None; err := None |};
     rangeUpdated := elements; rangeLast := elements |}.

(** A receive of [ev] with both maps visited in reverse. *)
Definition deliverRev (ev : event) : choices :=
  {| sel := received {| ep := Some ev; err := None |};
     rangeUpdated := λ m, reverse (elements m);
     rangeLast := λ m, reverse (elements m) |}.

(** ** Address resolution *)

Lemma subsetToAddresses_no_ports t sub :
  Ports sub = [] → subsetToAddresses t sub = ([], Some (Errorf msgNoPort)).
Proof. intros H. unfold subsetToAddresses. by rewrite H. Qed.

Lemma subsetToAddresses_error t sub l e :
  subsetToAddresses t sub = (l, Some e) →
  Ports sub = [] ∧ l = [] ∧ e = Errorf msgNoPort.
Proof.
  unfold subsetToAddresses. destruct (Ports sub) as [|p0 ps]; [|done].
  intros [= <- <-]. done.
Qed.

Lemma subsetToAddresses_some_port t sub :
  Ports sub ≠ [] → (subsetToAddresses t sub).2 = None.
Proof. unfold subsetToAddresses. by destruct (Ports sub). Qed.

Lemma namedPort_no_match name ps port :
  (∀ p, p ∈ ps → Name p ≠ name) → namedPort name ps port = port.
Proof.
  induction ps as [|p ps IH]; intros Hno; simpl; [done|].
  destruct (decide (Name p = name)) as [Heq|_].
  - exfalso. apply (Hno p); [left | exact Heq].
  - apply IH. intros q Hq. apply Hno. by right.
Qed.

(** What the code returns on a named-port miss: every address of the
    subset, joined with the port string left empty. *)
Lemma subsetToAddresses_named_miss t sub :
  Ports sub ≠ [] →
  target_port t ≠ noTargetPort →
  isNamed (target_port t) = true →
  (∀ p, p ∈ Ports sub → Name p ≠ value (target_port t)) →
  subsetToAddresses t sub
  = ((λ a, JoinHostPort (IP a) "") <$> Addresses sub, None).
Proof.
  intros Hports Hset Hnamed Hmiss. unfold subsetToAddresses.
  destruct (Ports sub) as [|p0 ps] eqn:E; [done|].
  rewrite decide_False by done. rewrite Hnamed.
  by rewrite namedPort_no_match.
Qed.

(** ** The loops of [next] *)

Lemma foldl_insert_addresses (acc : gset string) (l : list string) :
  foldl (λ m a, {[a]} ∪ m) acc l = acc ∪ list_to_set l.
Proof.
  revert acc. induction l as [|a l IH]; intros acc; simpl.
  - set_solver.
  - rewrite IH. set_solver.
Qed.

Lemma collectEndpoints_ok t subs acc :
  Forall (λ sub, Ports sub ≠ []) subs →
  collectEndpoints t subs acc = (acc ∪ resolved t subs, None).
Proof.
  revert acc. induction subs as [|sub subs IH]; intros acc Hall; simpl.
  - f_equal. unfold resolved. set_solver.
  - inversion Hall as [|? ? Hsub Hrest]; subst.
    pose proof (subsetToAddresses_some_port t sub Hsub) as Hnone.
    destruct (subsetToAddresses t sub) as [l oe] eqn:E. simpl in Hnone. subst oe.
    rewrite IH by done. f_equal. rewrite foldl_insert_addresses.
    unfold resolved. simpl. rewrite E. simpl. set_solver.
Qed.

Lemma collectEndpoints_inv t subs acc S oe :
  collectEndpoints t subs acc = (S, oe) →
  match oe with
  | None => Forall (λ sub, Ports sub ≠ []) subs ∧ S = acc ∪ resolved t subs
  | Some e => Exists (λ sub, Ports sub = []) subs ∧ e = Errorf msgNoPort
  end.
Proof.
  revert acc. induction subs as [|sub subs IH]; intros acc; simpl.
  - intros [= <- <-]. split; [constructor|]. unfold resolved. set_solver.
  - destruct (subsetToAddresses t sub) as [l [e|]] eqn:E.
    + intros [= <- <-]. apply subsetToAddresses_error in E as (Hp & _ & ->).
      split; [by left | done].
    + intros Hrest. apply IH in Hrest. destruct oe as [e|].
      * destruct Hrest as [Hex ->]. split; [by right | done].
      * destruct Hrest as [Hall ->]. split.
        -- constructor; [|done]. intros Hp.
           rewrite (subsetToAddresses_no_ports t sub Hp) in E. done.
        -- rewrite foldl_insert_addresses. unfold resolved. simpl.
           rewrite E. simpl. set_solver.
  Qed.

Lemma collectEndpoints_no_ports t subs acc :
  Exists (λ sub, Ports sub = []) subs →
  ∃ S, collectEndpoints t subs acc = (S, Some (Errorf msgNoPort)).
Proof.
  intros Hex. destruct (collectEndpoints t subs acc) as [S oe] eqn:E.
  pose proof (collectEndpoints_inv _ _ _ _ _ E) as Hinv.
  destruct oe as [e|].
  - destruct Hinv as [_ ->]. by exists S.
  - destruct Hinv as [Hall _]. exfalso.
    apply Exists_exists in Hex as (sub & Hin & Hp).
    rewrite Forall_forall in Hall. by apply (Hall sub).
Qed.

Lemma diffUpdates_perm c (last updated : gset string) :
  validChoices c →
  diffUpdates c last updated
  ≡ₚ (addUpdate <$> elements (updated ∖ last))
     ++ (deleteUpdate <$> elements (last ∖ updated)).
Proof.
  intros [Hu Hl]. unfold diffUpdates.
  assert (Hfilter : ∀ (X Y : gset string),
             filter (λ a, a ∉ Y) (elements X) ≡ₚ elements (X ∖ Y)).
  { intros X Y. apply NoDup_Permutation.
    - apply NoDup_filter, NoDup_elements.
    - apply NoDup_elements.
    - intros x. rewrite list_elem_of_filter, !elem_of_elements. set_solver. }
  rewrite (Hu updated), (Hl last), !Hfilter. done.
Qed.

Lemma elem_of_resolved t subs a :
  a ∈ resolved t subs
  ↔ ∃ sub, sub ∈ subs ∧ a ∈ (subsetToAddresses t sub).1.
Proof.
  unfold resolved. rewrite elem_of_union_list. split.
  - intros (X & HX & Ha). apply list_elem_of_fmap in HX as (sub & -> & Hsub).
    exists sub. split; [done|]. by apply elem_of_list_to_set in Ha.
  - intros (sub & Hsub & Ha).
    exists (list_to_set (subsetToAddresses t sub).1). split.
    + apply list_elem_of_fmap. by exists sub.
    + by apply elem_of_list_to_set.
Qed.

Lemma forallb_hasPorts (subs : list subset) :
  forallb hasPorts subs = true ↔ Forall (λ sub, Ports sub ≠ []) subs.
Proof.
  rewrite forallb_forall, Forall_forall. unfold hasPorts.
  split; intros H sub Hin.
  - apply list_elem_of_In, H in Hin. by destruct (Ports sub).
  - apply list_elem_of_In, H in Hin. by destruct (Ports sub).
Qed.

Lemma elem_of_diffUpdates_add c (last updated : gset string) a :
  validChoices c →
  addUpdate a ∈ diffUpdates c last updated ↔ a ∈ updated ∧ a ∉ last.
Proof.
  intros Hvalid. rewrite (diffUpdates_perm _ _ _ Hvalid), elem_of_app.
  rewrite !list_elem_of_fmap. split.
  - intros [(b & Hb & Hin)|(b & Hb & _)]; [|done].
    injection Hb as ->. apply elem_of_elements in Hin. set_solver.
  - intros [Hin Hnot]. left. exists a. split; [done|].
    apply elem_of_elements. set_solver.
Qed.

Lemma Addr_addUpdate (l : list string) :
  naming.Addr <$> (addUpdate <$> l) = l.
Proof. induction l as [|a l IH]; simpl; [done | by f_equal]. Qed.

Lemma Addr_deleteUpdate (l : list string) :
  naming.Addr <$> (deleteUpdate <$> l) = l.
Proof. induction l as [|a l IH]; simpl; [done | by f_equal]. Qed.

(** ** One call of [next] and [Next] *)

Lemma Close_stopped w : cancelled w = true → Close w = w.
Proof. destruct w as [b t l]. simpl. intros ->. done. Qed.

Lemma Next_stopped w c :
  cancelled w = true →
  Next w c = Return ([], Some (Wrapped Canceled msgStopped), w).
Proof. intros H. unfold Next, ctx_Err. by rewrite H. Qed.

Lemma next_inv w c us oe w' :
  next w c = Return (us, oe, w') →
  match oe with
  | Some e =>
      us = [] ∧ lastUpdates w' = lastUpdates w ∧ target w' = target w
      ∧ (CancelledError e ∨ EventStreamError e ∨ NoPortError e)
  | None =>
      ∃ ev, delivers c ev
            ∧ Forall (λ sub, Ports sub ≠ []) (Subsets (Object ev))
            ∧ us = diffUpdates c (lastUpdates w) (eventAddresses (target w) ev)
            ∧ w' = {| cancelled := cancelled w; target := target w;
                      lastUpdates := eventAddresses (target w) ev |}
  end.
Proof.
  unfold next, delivers. destruct (sel c) as [|[oev oerr]]; simpl.
  - intros [= <- <- <-]. simpl. repeat split; by left.
  - destruct oerr as [e|]; simpl.
    + intros [= <- <- <-]. repeat split. right; left. by eexists.
    + destruct oev as [ev|]; [|done].
      destruct (collectEndpoints _ _ _) as [S [e|]] eqn:E;
        apply collectEndpoints_inv in E.
      * destruct E as [_ ->]. intros [= <- <- <-]. repeat split.
        right; right. done.
      * destruct E as [Hall ->]. intros [= <- <- <-]. exists ev.
        unfold eventAddresses.
        replace (∅ ∪ resolved (target w) (Subsets (Object ev)))
          with (resolved (target w) (Subsets (Object ev))) by set_solver.
        done.
Qed.

Lemma Next_error_inv w c us e w' :
  Next w c = Return (us, Some e, w') →
  us = [] ∧ cancelled w' = true
  ∧ lastUpdates w' = lastUpdates w ∧ target w' = target w.
Proof.
  unfold Next, ctx_Err. destruct (cancelled w) eqn:Hc; simpl.
  - intros [= <- <- <-]. done.
  - destruct (next w c) as [[[u [e'|]] w1]|] eqn:E; [|done..].
    intros [= <- <- <-]. apply next_inv in E as (-> & Hl & Ht & _). done.
Qed.

Lemma Next_ok_inv w c us w' :
  Next w c = Return (us, None, w') →
  cancelled w = false
  ∧ ∃ ev, delivers c ev
          ∧ Forall (λ sub, Ports sub ≠ []) (Subsets (Object ev))
          ∧ us = diffUpdates c (lastUpdates w) (eventAddresses (target w) ev)
          ∧ w' = {| cancelled := false; target := target w;
                    lastUpdates := eventAddresses (target w) ev |}.
Proof.
  unfold Next, ctx_Err. destruct (cancelled w) eqn:Hc; simpl; [done|].
  destruct (next w c) as [[[u [e'|]] w1]|] eqn:E; [done| |done].
  intros [= <- <-]. apply next_inv in E as (ev & Hd & Hall & -> & ->).
  rewrite Hc. split; [done|]. by exists ev.
Qed.

Lemma Next_deliver_ok w c ev :
  cancelled w = false →
  delivers c ev →
  Forall (λ sub, Ports sub ≠ []) (Subsets (Object ev)) →
  Next w c
  = Return (diffUpdates c (lastUpdates w) (eventAddresses (target w) ev),
            None,
            {| cancelled := false; target := target w;
               lastUpdates := eventAddresses (target w) ev |}).
Proof.
  intros Hc Hd Hall. unfold Next, ctx_Err, next. rewrite Hc, Hd. simpl.
  rewrite (collectEndpoints_ok _ _ _ Hall). unfold eventAddresses.
  replace (∅ ∪ resolved (target w) (Subsets (Object ev)))
    with (resolved (target w) (Subsets (Object ev))) by set_solver.
  done.
Qed.

(** A call blocked in the [select] that sees the context cancelled returns
    the cancellation error of the context itself. *)
Lemma Next_observes_cancellation w c :
  cancelled w = false →
  sel c = ctxDone →
  Next w c = Return ([], Some Canceled, Close w).
Proof. intros Hc Hs. unfold Next, ctx_Err, next. rewrite Hc, Hs. done. Qed.

Lemma Next_deliver_no_ports w c ev :
  cancelled w = false →
  delivers c ev →
  Exists (λ sub, Ports sub = []) (Subsets (Object ev)) →
  Next w c
  = Return ([], Some (Wrapped (Errorf msgNoPort) msgConvert), Close w).
Proof.
  intros Hc Hd Hex. unfold Next, ctx_Err, next. rewrite Hc, Hd. simpl.
  destruct (collectEndpoints_no_ports (target w) _ ∅ Hex) as [S ->]. done.
Qed.

(** ** Runs *)

Lemma run_stopped w ops :
  cancelled w = true →
  run w ops = Return (replicate (countNext ops) stoppedResult, w).
Proof.
  intros Hc. induction ops as [|[c|] ops IH]; simpl.
  - done.
  - rewrite (Next_stopped _ _ Hc), IH. done.
  - by rewrite (Close_stopped _ Hc).
Qed.

Lemma run_stopped_results w ops :
  cancelled w = true →
  ∃ rs, run w ops = Return (rs, w)
        ∧ length rs = countNext ops
        ∧ Forall (λ r, ∃ e, r = ([], Some e) ∧ AlreadyStoppedError e) rs.
Proof.
  intros Hc. exists (replicate (countNext ops) stoppedResult).
  split; [by apply run_stopped|]. split; [by rewrite length_replicate|].
  apply Forall_replicate. exists (Wrapped Canceled msgStopped).
  split; [done|]. by exists Canceled.
Qed.

Lemma run_lastProcessed w ops rs w' :
  run w ops = Return (rs, w') →
  lastUpdates w' = lastProcessed (target w) (lastUpdates w) ops rs
  ∧ target w' = target w.
Proof.
  revert w rs. induction ops as [|[c|] ops IH]; intros w rs; simpl.
  - intros [= <- <-]. done.
  - destruct (Next w c) as [[[u oe] w1]|] eqn:E; [|done].
    destruct (run w1 ops) as [[rs1 w2]|] eqn:R; [|done].
    intros [= <- <-]. apply IH in R as [Hl Ht]. destruct oe as [e|].
    + apply Next_error_inv in E as (_ & _ & El & Et).
      rewrite Hl, Ht, El, Et. done.
    + apply Next_ok_inv in E as (_ & ev & Hd & _ & _ & ->).
      unfold delivers in Hd. rewrite Hd. simpl in *. done.
  - intros R. apply IH in R as [Hl Ht]. done.
Qed.

(** ** Properties of address resolution *)

(** C9: on a subset with at least one port, when the target port is unset,
    [subsetToAddresses] takes the number of the first port of the subset and
    returns [JoinHostPort ip port] for each address of the subset, in
    order. *)
Theorem unset_port_uses_first_port t sub p0 ps :
  Ports sub = p0 :: ps →
  target_port t = noTargetPort →
  subsetToAddresses t sub
  = ((λ a, JoinHostPort (IP a) (Itoa (Port p0))) <$> Addresses sub, None).
Proof.
  intros Hports Hunset. unfold subsetToAddresses. rewrite Hports.
  by rewrite decide_True.
Qed.

(** ** Properties of the diff *)

(** C3: when an Active watcher processes a change event without error, the
    batch it returns is, up to order, one Add for each address of the new
    address set that is not in [lastUpdates], followed by one Delete for
    each address of [lastUpdates] that is not in the new set; an address of
    both sets has no update. *)
Theorem next_diff_exact w c ev us w' :
  Active w →
  validChoices c →
  delivers c ev →
  Next w c = Return (us, None, w') →
  us ≡ₚ (addUpdate <$> elements (eventAddresses (target w) ev ∖ lastUpdates w))
        ++ (deleteUpdate
              <$> elements (lastUpdates w ∖ eventAddresses (target w) ev)).
Proof.
  intros _ Hvalid Hd Hnext.
  apply Next_ok_inv in Hnext as (_ & ev' & Hd' & _ & -> & _).
  unfold delivers in *. rewrite Hd in Hd'. injection Hd' as <-.
  by apply diffUpdates_perm.
Qed.

(** C8: when a change event is processed without error, the addresses that
    its subsets resolve to are unioned: the new [lastUpdates] holds an
    address exactly when some subset resolves to it, and the batch has an
    Add for an address exactly when some subset resolves to it and it was
    not known before. The batch names no address twice, so an address that
    several subsets resolve to has one Add. *)
Theorem batch_no_duplicate_addresses w c ev us w' :
  validChoices c →
  delivers c ev →
  Next w c = Return (us, None, w') →
  (∀ a, a ∈ lastUpdates w'
        ↔ ∃ sub, sub ∈ Subsets (Object ev)
                 ∧ a ∈ (subsetToAddresses (target w) sub).1)
  ∧ (∀ a, addUpdate a ∈ us
          ↔ (∃ sub, sub ∈ Subsets (Object ev)
                    ∧ a ∈ (subsetToAddresses (target w) sub).1)
            ∧ a ∉ lastUpdates w)
  ∧ NoDup (naming.Addr <$> us).
Proof.
  intros Hvalid Hd Hnext.
  apply Next_ok_inv in Hnext as (_ & ev' & Hd' & _ & -> & ->). simpl.
  unfold delivers in *. rewrite Hd in Hd'. injection Hd' as <-.
  split; [|split].
  - intros a. apply elem_of_resolved.
  - intros a. rewrite (elem_of_diffUpdates_add _ _ _ _ Hvalid).
    unfold eventAddresses. by rewrite elem_of_resolved.
  - rewrite (diffUpdates_perm _ _ _ Hvalid).
    rewrite fmap_app, Addr_addUpdate, Addr_deleteUpdate.
    apply NoDup_app. split; [apply NoDup_elements|].
    split; [|apply NoDup_elements].
    intros x. rewrite !elem_of_elements. set_solver.
Qed.

(** C7: when an Active watcher is delivered two change events in a row
    that resolve to the same address set (the same event twice, or events
    that differ in what does not reach the address set), the second call
    succeeds with an empty batch and the watcher stays as it is. *)
Theorem identical_event_empty_batch w c1 c2 ev1 ev2 us1 w1 :
  Active w →
  validChoices c2 →
  delivers c1 ev1 →
  delivers c2 ev2 →
  resolution (target w) ev2 = resolution (target w) ev1 →
  Next w c1 = Return (us1, None, w1) →
  Next w1 c2 = Return ([], None, w1).
Proof.
  intros _ Hvalid Hd1 Hd2 Hsame Hnext.
  apply Next_ok_inv in Hnext as (_ & ev' & Hd' & Hall & _ & ->).
  unfold delivers in Hd1, Hd'. rewrite Hd1 in Hd'. injection Hd' as <-.
  unfold resolution in Hsame.
  rewrite (proj2 (forallb_hasPorts _) Hall) in Hsame.
  destruct (forallb hasPorts (Subsets (Object ev2))) eqn:Hall2; [|done].
  apply forallb_hasPorts in Hall2. injection Hsame as Hsame.
  rewrite (Next_deliver_ok _ c2 ev2) by done. simpl. rewrite Hsame.
  pose proof (diffUpdates_perm c2 (eventAddresses (target w) ev1)
                (eventAddresses (target w) ev1) Hvalid) as Hperm.
  rewrite difference_diag_L, elements_empty in Hperm. simpl in Hperm.
  apply Permutation_nil_r in Hperm. rewrite Hperm. done.
Qed.

(** C10: a change event without subsets is not an error: an Active watcher
    returns one Delete for each address of [lastUpdates], no Add, and its
    [lastUpdates] becomes empty. *)
Theorem empty_event_removes_all w c ev :
  Active w →
  validChoices c →
  delivers c ev →
  Subsets (Object ev) = [] →
  ∃ us w',
    Next w c = Return (us, None, w')
    ∧ us ≡ₚ deleteUpdate <$> elements (lastUpdates w)
    ∧ (∀ u, u ∈ us → naming.Op u = naming.Delete)
    ∧ lastUpdates w' = ∅.
Proof.
  intros Hact Hvalid Hd Hsubs.
  assert (Hev : eventAddresses (target w) ev = ∅).
  { unfold eventAddresses, resolved. rewrite Hsubs. done. }
  eexists _, _. split.
  { apply Next_deliver_ok; [done..|]. rewrite Hsubs. constructor. }
  rewrite Hev. simpl.
  assert (Hperm : diffUpdates c (lastUpdates w) ∅
                  ≡ₚ deleteUpdate <$> elements (lastUpdates w)).
  { rewrite (diffUpdates_perm _ _ _ Hvalid).
    rewrite difference_empty_L.
    replace ((∅ : gset string) ∖ lastUpdates w) with (∅ : gset string)
      by set_solver.
    rewrite elements_empty. done. }
  split; [done|]. split; [|done].
  intros u Hu. rewrite Hperm in Hu.
  apply list_elem_of_fmap in Hu as (a & -> & _). done.
Qed.

(** ** Errors are terminal *)

(** C2: when an Active watcher is delivered a change event with a subset
    that has no port, [Next] fails with the no-port error and the watcher
    is Stopped; every later [Next] fails with the already-stopped error. *)
Theorem no_port_event_stops_watcher w c ev :
  Active w →
  delivers c ev →
  Exists (λ sub, Ports sub = []) (Subsets (Object ev)) →
  ∃ e w',
    Next w c = Return ([], Some e, w')
    ∧ NoPortError e
    ∧ Stopped w'
    ∧ ∀ ops, ∃ rs,
        run w' ops = Return (rs, w')
        ∧ length rs = countNext ops
        ∧ Forall (λ r, ∃ e', r = ([], Some e') ∧ AlreadyStoppedError e') rs.
Proof.
  intros Hact Hd Hex. eexists _, _.
  split; [by apply (Next_deliver_no_ports w c ev)|].
  split; [done|]. split; [done|].
  intros ops. by apply run_stopped_results.
Qed.

(** C4: a [Next] call that returns an error returns no update and leaves
    [lastUpdates] as it was; if the watcher was reached by a run from [w0],
    [lastUpdates] is still the address set of the last change event of that
    run that was processed without error. *)
Theorem error_keeps_lastUpdates w c us e w' :
  Next w c = Return (us, Some e, w') →
  us = []
  ∧ lastUpdates w' = lastUpdates w
  ∧ ∀ w0 ops rs,
      run w0 ops = Return (rs, w) →
      lastUpdates w' = lastProcessed (target w0) (lastUpdates w0) ops rs.
Proof.
  intros Hnext. apply Next_error_inv in Hnext as (-> & _ & Hl & _).
  split; [done|]. split; [done|].
  intros w0 ops rs Hrun. rewrite Hl. by apply run_lastProcessed in Hrun as [-> _].
Qed.

(** C5: once a [Next] call has returned an error, every later [Next] call,
    whatever calls of [Next] and [Close] come in between, returns the
    already-stopped error and no update, and the watcher stays as it is. *)
Theorem error_is_terminal w c us e w1 :
  Next w c = Return (us, Some e, w1) →
  ∀ ops, ∃ rs,
    run w1 ops = Return (rs, w1)
    ∧ length rs = countNext ops
    ∧ Forall (λ r, ∃ e', r = ([], Some e') ∧ AlreadyStoppedError e') rs.
Proof.
  intros Hnext ops. apply Next_error_inv in Hnext as (_ & Hc & _).
  by apply run_stopped_results.
Qed.

(** C6 (as the code has it): after [Close], a [Next] call does not reach
    the [select]: whatever the event source holds, it fails at once with the
    already-stopped error, whose cause is the cancellation error of the
    context, and the watcher is Stopped and otherwise unchanged. The
    cancellation error itself is what a failing [Next] call returns exactly
    when the watcher was Active at the start of the call and the [select]
    saw the context cancelled. *)
Theorem next_after_close_already_stopped w c :
  Next (Close w) c = Return ([], Some (Wrapped Canceled msgStopped), Close w)
  ∧ AlreadyStoppedError (Wrapped Canceled msgStopped)
  ∧ Stopped (Close w)
  ∧ lastUpdates (Close w) = lastUpdates w
  ∧ ∀ w0 c0 us e w',
      Next w0 c0 = Return (us, Some e, w') →
      CancelledError e ↔ Active w0 ∧ sel c0 = ctxDone.
Proof.
  split; [by apply Next_stopped|]. split; [by exists Canceled|].
  split; [done|]. split; [done|].
  intros w0 c0 us e w' Hnext. unfold CancelledError, Active. split.
  - intros ->. revert Hnext. unfold Next, ctx_Err.
    destruct (cancelled w0) eqn:Hc; simpl; [done|].
    destruct (next w0 c0) as [[[u [e'|]] w1]|] eqn:E; [|done..].
    intros [= -> -> <-]. split; [done|]. revert E. unfold next.
    destruct (sel c0) as [|[[ev|] [e0|]]]; simpl; try done.
    by destruct (collectEndpoints _ _ _) as [S [e0|]].
  - intros [Hc Hsel].
    rewrite (Next_observes_cancellation _ _ Hc Hsel) in Hnext.
    by injection Hnext as <- <- <-.
Qed.

(** ** Further properties of address resolution *)

Lemma namedPort_first_match name pre p post port :
  (∀ q, q ∈ pre → Name q ≠ name) →
  Name p = name →
  namedPort name (pre ++ p :: post)%list port = Itoa (Port p).
Proof.
  intros Hpre Hp. induction pre as [|q pre IH]; simpl.
  - by rewrite decide_True.
  - rewrite decide_False by (apply Hpre; left).
    apply IH. intros r Hr. apply Hpre. by right.
Qed.

(** X1: [subsetToAddresses] fails exactly on a subset without ports,
    whatever the target port is (a numeric literal too); the error is then
    the no-port error and no address is returned. *)
Theorem subsetToAddresses_fails_iff_no_ports t sub :
  ((subsetToAddresses t sub).2 ≠ None ↔ Ports sub = [])
  ∧ ∀ l e, subsetToAddresses t sub = (l, Some e) →
           l = [] ∧ e = Errorf msgNoPort.
Proof.
  split.
  - split.
    + intros Hsome. destruct (Ports sub) as [|p ps] eqn:E; [done|].
      exfalso. apply Hsome, subsetToAddresses_some_port. by rewrite E.
    + intros Hp. by rewrite (subsetToAddresses_no_ports t sub Hp).
  - intros l e H. by apply subsetToAddresses_error in H as (_ & -> & ->).
Qed.

(** X2: with a named target port, the port number is taken from the first
    port of the subset that carries the name, also when a later port
    carries it too, and every address of the subset is joined with it. *)
Theorem named_port_first_match t sub pre p post :
  Ports sub = (pre ++ p :: post)%list →
  target_port t ≠ noTargetPort →
  isNamed (target_port t) = true →
  (∀ q, q ∈ pre → Name q ≠ value (target_port t)) →
  Name p = value (target_port t) →
  subsetToAddresses t sub
  = ((λ a, JoinHostPort (IP a) (Itoa (Port p))) <$> Addresses sub, None).
Proof.
  intros Hports Hset Hnamed Hpre Hp. unfold subsetToAddresses.
  destruct (Ports sub) as [|p0 ps] eqn:E.
  - by destruct pre.
  - rewrite decide_False by done. rewrite Hnamed, Hports.
    by rewrite namedPort_first_match.
Qed.

(** X3: with a numeric-literal target port, every address of a subset that
    has at least one port is joined with the literal; the names and numbers
    of the subset's ports play no part. *)
Theorem literal_port_ignores_subset_ports t sub :
  Ports sub ≠ [] →
  target_port t ≠ noTargetPort →
  isNamed (target_port t) = false →
  subsetToAddresses t sub
  = ((λ a, JoinHostPort (IP a) (value (target_port t))) <$> Addresses sub,
     None).
Proof.
  intros Hports Hset Hnamed. unfold subsetToAddresses.
  destruct (Ports sub) as [|p0 ps]; [done|].
  rewrite decide_False by done. by rewrite Hnamed.
Qed.

(** ** Further properties of one call *)

(** X4: when the value received from the event source carries an error, an
    Active watcher returns that error wrapped as an event-stream error and
    no update, also when the value carries an event as well; the event is
    not looked at, [lastUpdates] is kept and the watcher is Stopped. *)
Theorem stream_error_stops_watcher w c oev e :
  Active w →
  sel c = received {| ep := oev; err := Some e |} →
  Next w c = Return ([], Some (Wrapped e msgStream), Close w)
  ∧ EventStreamError (Wrapped e msgStream)
  ∧ lastUpdates (Close w) = lastUpdates w.
Proof.
  intros Hact Hsel. unfold Next, ctx_Err, next. rewrite Hact, Hsel. simpl.
  split; [done|]. split; [by exists e | done].
Qed.

(** X5: [Next] panics in exactly one situation: the watcher is Active and
    the value received from the event source carries neither an event nor
    an error. A Stopped watcher never panics. *)
Theorem Next_panics_iff_nil_result w c :
  Next w c = Panic
  ↔ cancelled w = false ∧ sel c = received {| ep := None; err := None |}.
Proof.
  split.
  - unfold Next, ctx_Err. destruct (cancelled w) eqn:Hc; simpl; [done|].
    destruct (next w c) as [[[u [e|]] w1]|] eqn:E; [done..|].
    intros _. split; [done|]. revert E. unfold next.
    destruct (sel c) as [|[[ev|] [e|]]]; simpl; try done.
    by destruct (collectEndpoints _ _ _) as [S [e|]].
  - intros [Hc Hsel]. unfold Next, ctx_Err, next. by rewrite Hc, Hsel.
Qed.

(** X6: when a call of [Next] on an Active watcher is blocked in the
    [select] and sees the context cancelled, it returns the cancellation
    error of the context, unwrapped, and no update; the watcher is Stopped
    with [lastUpdates] kept, and the calls after it return the
    already-stopped error. *)
Theorem cancellation_in_flight w c ops :
  Active w →
  sel c = ctxDone →
  Next w c = Return ([], Some Canceled, Close w)
  ∧ lastUpdates (Close w) = lastUpdates w
  ∧ run (Close w) ops
    = Return (replicate (countNext ops) stoppedResult, Close w).
Proof.
  intros Hact Hsel. split; [by apply Next_observes_cancellation|].
  split; [done|]. by apply run_stopped.
Qed.

(** X7: a watcher is returned by [startNewWatcher] only when the event
    source started without error; it is Active with nothing known, so the
    batch of its first change event is one Add for each address of the
    event and no Delete. *)
Theorem first_event_adds_everything tgt startErr w c ev us w' :
  (startNewWatcher tgt startErr).1 = Some w →
  validChoices c →
  delivers c ev →
  Next w c = Return (us, None, w') →
  startErr = None
  ∧ (startNewWatcher tgt startErr).2 = None
  ∧ Active w
  ∧ us ≡ₚ addUpdate <$> elements (eventAddresses tgt ev)
  ∧ lastUpdates w' = eventAddresses tgt ev.
Proof.
  unfold startNewWatcher. destruct startErr as [e|]; simpl; [done|].
  intros [= <-] Hvalid Hd Hnext.
  apply Next_ok_inv in Hnext as (_ & ev' & Hd' & _ & -> & ->). simpl in *.
  unfold delivers in *. rewrite Hd in Hd'. injection Hd' as <-.
  repeat split; try done.
  rewrite (diffUpdates_perm _ _ _ Hvalid).
  rewrite difference_empty_L.
  replace ((∅ : gset string) ∖ eventAddresses tgt ev) with (∅ : gset string)
    by set_solver.
  rewrite elements_empty. simpl. by rewrite app_nil_r.
Qed.

(** X8: after a change event is processed without error the watcher is
    still Active with the same target, and [lastUpdates] holds exactly the
    addresses that some subset of the event resolves to: it is a snapshot of
    the event, whatever was known before. *)
Theorem success_is_event_snapshot w c ev us w' :
  delivers c ev →
  Next w c = Return (us, None, w') →
  Active w'
  ∧ target w' = target w
  ∧ ∀ a, a ∈ lastUpdates w'
         ↔ ∃ sub, sub ∈ Subsets (Object ev)
                  ∧ a ∈ (subsetToAddresses (target w) sub).1.
Proof.
  intros Hd Hnext.
  apply Next_ok_inv in Hnext as (_ & ev' & Hd' & _ & _ & ->). simpl.
  unfold delivers in *. rewrite Hd in Hd'. injection Hd' as <-.
  split; [done|]. split; [done|]. intros a. apply elem_of_resolved.
Qed.

(** X14: with the target port unset, each subset of a change event is
    resolved with its own first port: after the event is processed without
    error, [lastUpdates] holds exactly the addresses of the subsets joined
    with the number of the first port of their subset. *)
Theorem unset_port_is_per_subset w c ev us w' :
  target_port (target w) = noTargetPort →
  delivers c ev →
  Next w c = Return (us, None, w') →
  ∀ a, a ∈ lastUpdates w'
       ↔ ∃ sub p0 ps addr,
           sub ∈ Subsets (Object ev)
           ∧ Ports sub = p0 :: ps
           ∧ addr ∈ Addresses sub
           ∧ a = JoinHostPort (IP addr) (Itoa (Port p0)).
Proof.
  intros Hunset Hd Hnext a.
  apply Next_ok_inv in Hnext as (_ & ev' & Hd' & _ & _ & ->). simpl.
  unfold delivers in *. rewrite Hd in Hd'. injection Hd' as <-.
  unfold eventAddresses. rewrite elem_of_resolved.
  assert (Hsub : ∀ sub p0 ps, Ports sub = p0 :: ps →
            (subsetToAddresses (target w) sub).1
            = (λ x, JoinHostPort (IP x) (Itoa (Port p0))) <$> Addresses sub).
  { intros sub p0 ps Hp. unfold subsetToAddresses. rewrite Hp.
    by rewrite decide_True. }
  split.
  - intros (sub & Hin & Ha). destruct (Ports sub) as [|p0 ps] eqn:E.
    + rewrite (subsetToAddresses_no_ports _ _ E) in Ha. simpl in Ha.
      by apply elem_of_nil in Ha.
    + rewrite (Hsub _ _ _ E) in Ha.
      apply list_elem_of_fmap in Ha as (addr & -> & Haddr).
      by exists sub, p0, ps, addr.
  - intros (sub & p0 & ps & addr & Hin & Hp & Haddr & ->).
    exists sub. split; [done|]. rewrite (Hsub _ _ _ Hp).
    apply list_elem_of_fmap. by exists addr.
Qed.

(** ** Further properties of the diff *)

Lemma applyBatch_adds (s : gset string) (l : list string) :
  applyBatch s (addUpdate <$> l) = list_to_set l ∪ s.
Proof.
  unfold applyBatch. revert s. induction l as [|a l IH]; intros s; simpl.
  - set_solver.
  - rewrite IH. unfold applyUpdate. simpl. set_solver.
Qed.

Lemma applyBatch_deletes (s : gset string) (l : list string) :
  applyBatch s (deleteUpdate <$> l) = s ∖ list_to_set l.
Proof.
  unfold applyBatch. revert s. induction l as [|a l IH]; intros s; simpl.
  - set_solver.
  - rewrite IH. unfold applyUpdate. simpl. set_solver.
Qed.

Lemma applyBatch_diffUpdates c (last updated : gset string) :
  validChoices c →
  applyBatch last (diffUpdates c last updated) = updated.
Proof.
  intros [Hu Hl]. unfold diffUpdates, applyBatch. rewrite foldl_app.
  fold (applyBatch last
          (addUpdate <$> filter (λ addr, addr ∉ last) (rangeUpdated c updated))).
  rewrite applyBatch_adds.
  match goal with
  | |- foldl applyUpdate ?s ?l = _ => fold (applyBatch s l)
  end.
  rewrite applyBatch_deletes.
  apply set_eq. intros x.
  rewrite elem_of_difference, elem_of_union, !elem_of_list_to_set.
  rewrite !list_elem_of_filter, (Hu updated), (Hl last), !elem_of_elements.
  destruct (decide (x ∈ updated)); destruct (decide (x ∈ last)); naive_solver.
Qed.

Lemma Next_applyBatch w c us oe w' :
  validChoices c →
  Next w c = Return (us, oe, w') →
  applyBatch (lastUpdates w) us = lastUpdates w'.
Proof.
  intros Hvalid Hnext. destruct oe as [e|].
  - by apply Next_error_inv in Hnext as (-> & _ & -> & _).
  - apply Next_ok_inv in Hnext as (_ & ev & _ & _ & -> & ->). simpl.
    by apply applyBatch_diffUpdates.
Qed.

(** X9: a consumer that applies the batch of a [Next] call to the address
    set the watcher had before the call holds the address set the watcher
    has after it, whatever the order of the batch, and also when the call
    fails (the batch is then empty). *)
Theorem batch_replay w c us oe w' :
  validChoices c →
  Next w c = Return (us, oe, w') →
  applyBatch (lastUpdates w) us = lastUpdates w'.
Proof.
  intros Hvalid Hnext. destruct oe as [e|].
  - apply Next_error_inv in Hnext as (-> & _ & Hkept & _).
    by rewrite Hkept.
  - apply Next_ok_inv in Hnext as (_ & ev & _ & _ & -> & ->). simpl.
    by apply applyBatch_diffUpdates.
Qed.

(** X10: over any run of [Next] and [Close] calls, a consumer that applies
    the returned batches one after the other, starting from the address set
    the watcher started with, ends with the address set of the watcher. *)
Theorem run_replay w ops rs w' :
  validOps ops →
  run w ops = Return (rs, w') →
  foldl applyBatch (lastUpdates w) rs.*1 = lastUpdates w'.
Proof.
  revert w rs. induction ops as [|[c|] ops IH]; intros w rs Hvalid; simpl.
  - intros [= <- <-]. done.
  - apply Forall_cons in Hvalid as [Hc Hvalid].
    destruct (Next w c) as [[[u oe] w1]|] eqn:E; [|done].
    destruct (run w1 ops) as [[rs1 w2]|] eqn:R; [|done].
    intros [= <- <-]. simpl.
    rewrite (Next_applyBatch _ _ _ _ _ Hc E). by apply IH.
  - apply Forall_cons in Hvalid as [_ Hvalid]. intros R.
    by apply (IH (Close w)).
Qed.

(** X11: the batch of a change event processed without error is empty
    exactly when the address set of the watcher did not change. *)
Theorem empty_batch_iff_unchanged w c us w' :
  validChoices c →
  Next w c = Return (us, None, w') →
  us = [] ↔ lastUpdates w' = lastUpdates w.
Proof.
  intros Hvalid Hnext.
  pose proof (Next_applyBatch _ _ _ _ _ Hvalid Hnext) as Happly.
  apply Next_ok_inv in Hnext as (_ & ev & _ & _ & -> & ->). simpl in *.
  split.
  - intros Hnil. by rewrite Hnil in Happly.
  - intros Heq. rewrite Heq.
    pose proof (diffUpdates_perm c (lastUpdates w) (lastUpdates w) Hvalid)
      as Hperm.
    rewrite difference_diag_L, elements_empty in Hperm.
    by apply Permutation_nil_r in Hperm.
Qed.

(** X12: in the batch of a change event processed without error every Add
    comes before every Delete; an Add carries the map value as metadata, a
    Delete carries none. *)
Theorem adds_before_deletes w c us w' :
  Next w c = Return (us, None, w') →
  (∀ i j u v,
     us !! i = Some u → us !! j = Some v →
     naming.Op u = naming.Add → naming.Op v = naming.Delete → i < j)
  ∧ ∀ u, u ∈ us →
         naming.Metadata u
         = match naming.Op u with
           | naming.Add => Some ()
           | naming.Delete => None
           end.
Proof.
  intros Hnext. apply Next_ok_inv in Hnext as (_ & ev & _ & _ & -> & _).
  unfold diffUpdates.
  set (adds := filter _ (rangeUpdated c _)).
  set (dels := filter _ (rangeLast c _)).
  split.
  - intros i j u v Hi Hj Hu Hv.
    destruct (decide (i < length (addUpdate <$> adds))) as [Hlt|Hge].
    + destruct (decide (j < length (addUpdate <$> adds))) as [Hjlt|Hjge]; [|lia].
      rewrite lookup_app_l in Hj by done.
      apply list_elem_of_lookup_2, list_elem_of_fmap in Hj as (a & -> & _).
      done.
    + rewrite lookup_app_r in Hi by lia.
      apply list_elem_of_lookup_2, list_elem_of_fmap in Hi as (a & -> & _).
      done.
  - intros u Hu. apply elem_of_app in Hu as [Hu|Hu];
      apply list_elem_of_fmap in Hu as (a & -> & _); done.
Qed.

Lemma ports_dichotomy (subs : list subset) :
  Forall (λ sub, Ports sub ≠ []) subs ∨ Exists (λ sub, Ports sub = []) subs.
Proof.
  induction subs as [|sub subs [IH|IH]].
  - left. constructor.
  - destruct (Ports sub) as [|p ps] eqn:E.
    + right. by left.
    + left. constructor; [by rewrite E | done].
  - right. by right.
Qed.

Lemma resolved_Permutation t subs1 subs2 :
  subs1 ≡ₚ subs2 → resolved t subs1 = resolved t subs2.
Proof.
  intros Hperm. apply set_eq. intros a. unfold resolved.
  rewrite !elem_of_union_list. by setoid_rewrite Hperm.
Qed.

(** X13: the order of the subsets of a change event does not matter: on two
    events whose subset lists are permutations of each other, an Active
    watcher returns the same error or none, ends in the same state, and
    returns the same batch up to order. *)
Theorem subset_order_irrelevant w c1 c2 ev1 ev2 us1 oe w1 :
  Active w →
  validChoices c1 →
  validChoices c2 →
  delivers c1 ev1 →
  delivers c2 ev2 →
  Subsets (Object ev1) ≡ₚ Subsets (Object ev2) →
  Next w c1 = Return (us1, oe, w1) →
  ∃ us2, Next w c2 = Return (us2, oe, w1) ∧ us1 ≡ₚ us2.
Proof.
  intros Hact Hv1 Hv2 Hd1 Hd2 Hperm Hnext.
  destruct (ports_dichotomy (Subsets (Object ev1))) as [Hall|Hex].
  - rewrite (Next_deliver_ok w c1 ev1) in Hnext by done.
    injection Hnext as <- <- <-.
    assert (Hall2 : Forall (λ sub, Ports sub ≠ []) (Subsets (Object ev2)))
      by (by rewrite <- Hperm).
    rewrite (Next_deliver_ok w c2 ev2) by done.
    unfold eventAddresses. rewrite <- (resolved_Permutation _ _ _ Hperm).
    eexists. split; [done|].
    by rewrite !diffUpdates_perm.
  - rewrite (Next_deliver_no_ports w c1 ev1) in Hnext by done.
    injection Hnext as <- <- <-.
    assert (Hex2 : Exists (λ sub, Ports sub = []) (Subsets (Object ev2)))
      by (by rewrite <- Hperm).
    rewrite (Next_deliver_no_ports w c2 ev2) by done.
    by exists [].
Qed.

End Watcher.


(** ** The properties at the sample inputs *)

Lemma deliver_valid ev : validChoices (deliver ev).
Proof. split; intros m; reflexivity. Qed.

Lemma deliverRev_valid ev : validChoices (deliverRev ev).
Proof. split; intros m; simpl; apply reverse_Permutation. Qed.

(** C1 fails on the code. At the named-port miss of the specification
    (target port named "grpc", subset ports [{"http", 80}], one address
    10.0.0.1) [subsetToAddresses] does not fail, but the loop over the
    ports leaves [port] empty and the address is returned joined with the
    empty port, not dropped; [Next] on a new watcher hands it to the
    consumer as an Add. *)
Lemma named_port_miss_not_empty :
  let sub := httpSubset ["10.0.0.1"] in
  Ports sub ≠ []
  ∧ target_port grpcTarget ≠ zeroPort
  ∧ isNamed (target_port grpcTarget) = true
  ∧ (∀ p, p ∈ Ports sub → Name p ≠ value (target_port grpcTarget))
  ∧ subsetToAddresses zeroPort grpcTarget sub = (["10.0.0.1:"], None)
  ∧ (subsetToAddresses zeroPort grpcTarget sub).1 ≠ []
  ∧ Next zeroPort (freshWatcher grpcTarget) (deliver (mkEvent [sub]))
    = Return ([addUpdate "10.0.0.1:"], None,
              watching grpcTarget ["10.0.0.1:"]).
Proof.
  simpl. repeat split; try done.
  intros p Hp. apply list_elem_of_singleton in Hp. by subst p.
Qed.

Lemma unset_port_uses_first_port_witness :
  subsetToAddresses zeroPort unsetTarget (httpSubset ["10.0.0.1"; "::1"])
  = (["10.0.0.1:80"; "[::1]:80"], None).
Proof.
  exact (unset_port_uses_first_port zeroPort unsetTarget
           (httpSubset ["10.0.0.1"; "::1"])
           {| Name := "http"; Port := 80 |} [] eq_refl eq_refl).
Defined.

(** Last known {a:80, b:80}, then an event that resolves to {b:80, c:80}:
    the batch is Add c:80 and Delete a:80. *)
Lemma next_diff_exact_witness :
  [addUpdate "c:80"; deleteUpdate "a:80"]
  ≡ₚ (addUpdate
        <$> elements (eventAddresses zeroPort unsetTarget
                        (mkEvent [httpSubset ["b"; "c"]])
                      ∖ lastUpdates (watching unsetTarget ["a:80"; "b:80"])))
     ++ (deleteUpdate
           <$> elements (lastUpdates (watching unsetTarget ["a:80"; "b:80"])
                         ∖ eventAddresses zeroPort unsetTarget
                             (mkEvent [httpSubset ["b"; "c"]]))).
Proof.
  apply (next_diff_exact zeroPort
           (watching unsetTarget ["a:80"; "b:80"])
           (deliver (mkEvent [httpSubset ["b"; "c"]]))
           (mkEvent [httpSubset ["b"; "c"]])
           [addUpdate "c:80"; deleteUpdate "a:80"]
           (watching unsetTarget ["b:80"; "c:80"])).
  - reflexivity.
  - apply deliver_valid.
  - reflexivity.
  - vm_compute. reflexivity.
Defined.

(** Two subsets that both resolve to x:80, one of them to y:80 too: one
    Add for each. *)
Lemma batch_no_duplicate_addresses_witness :
  (∀ a, a ∈ lastUpdates (watching unsetTarget ["x:80"; "y:80"])
        ↔ ∃ sub, sub ∈ Subsets (Object (mkEvent [httpSubset ["x"];
                                                  httpSubset ["x"; "y"]]))
                 ∧ a ∈ (subsetToAddresses zeroPort
                          (target (freshWatcher unsetTarget)) sub).1)
  ∧ (∀ a, addUpdate a ∈ [addUpdate "y:80"; addUpdate "x:80"]
          ↔ (∃ sub, sub ∈ Subsets (Object (mkEvent [httpSubset ["x"];
                                                     httpSubset ["x"; "y"]]))
                    ∧ a ∈ (subsetToAddresses zeroPort
                             (target (freshWatcher unsetTarget)) sub).1)
            ∧ a ∉ lastUpdates (freshWatcher unsetTarget))
  ∧ NoDup (naming.Addr <$> [addUpdate "y:80"; addUpdate "x:80"]).
Proof.
  apply (batch_no_duplicate_addresses zeroPort
           (freshWatcher unsetTarget)
           (deliver (mkEvent [httpSubset ["x"]; httpSubset ["x"; "y"]]))
           (mkEvent [httpSubset ["x"]; httpSubset ["x"; "y"]])
           [addUpdate "y:80"; addUpdate "x:80"]
           (watching unsetTarget ["x:80"; "y:80"])).
  - apply deliver_valid.
  - reflexivity.
  - vm_compute. reflexivity.
Defined.

(** The addresses a and b in one subset, then split over two subsets with
    b twice. *)
Lemma identical_event_empty_batch_witness :
  Next zeroPort (watching unsetTarget ["a:80"; "b:80"])
    (deliverRev (mkEvent [httpSubset ["b"]; httpSubset ["a"; "b"]]))
  = Return ([], None, watching unsetTarget ["a:80"; "b:80"]).
Proof.
  apply (identical_event_empty_batch zeroPort
           (freshWatcher unsetTarget)
           (deliver (mkEvent [httpSubset ["a"; "b"]]))
           (deliverRev (mkEvent [httpSubset ["b"]; httpSubset ["a"; "b"]]))
           (mkEvent [httpSubset ["a"; "b"]])
           (mkEvent [httpSubset ["b"]; httpSubset ["a"; "b"]])
           [addUpdate "a:80"; addUpdate "b:80"]).
  - reflexivity.
  - apply deliverRev_valid.
  - reflexivity.
  - reflexivity.
  - vm_compute. reflexivity.
  - vm_compute. reflexivity.
Defined.

Lemma empty_event_removes_all_witness :
  ∃ us w',
    Next zeroPort (watching unsetTarget ["a:80"; "b:80"]) (deliver (mkEvent []))
    = Return (us, None, w')
    ∧ us ≡ₚ deleteUpdate
            <$> elements (lastUpdates (watching unsetTarget ["a:80"; "b:80"]))
    ∧ (∀ u, u ∈ us → naming.Op u = naming.Delete)
    ∧ lastUpdates w' = ∅.
Proof.
  apply (empty_event_removes_all zeroPort
           (watching unsetTarget ["a:80"; "b:80"])
           (deliver (mkEvent [])) (mkEvent [])).
  - reflexivity.
  - apply deliver_valid.
  - reflexivity.
  - reflexivity.
Defined.

Lemma no_port_event_stops_watcher_witness :
  ∃ e w',
    Next zeroPort (watching unsetTarget ["a:80"])
      (deliver (mkEvent [httpSubset ["x"]; noPortSubset]))
    = Return ([], Some e, w')
    ∧ NoPortError e
    ∧ Stopped w'
    ∧ ∀ ops, ∃ rs,
        run zeroPort w' ops = Return (rs, w')
        ∧ length rs = countNext ops
        ∧ Forall (λ r, ∃ e', r = ([], Some e') ∧ AlreadyStoppedError e') rs.
Proof.
  apply (no_port_event_stops_watcher zeroPort
           (watching unsetTarget ["a:80"])
           (deliver (mkEvent [httpSubset ["x"]; noPortSubset]))
           (mkEvent [httpSubset ["x"]; noPortSubset])).
  - reflexivity.
  - reflexivity.
  - right. left. reflexivity.
Defined.

(** A failed call after a processed event: [lastUpdates] is still the
    address set of that event. *)
Lemma error_keeps_lastUpdates_witness :
  ([] : list naming.Update) = []
  ∧ lastUpdates (Close (watching unsetTarget ["a:80"]))
    = lastUpdates (watching unsetTarget ["a:80"])
  ∧ ∀ w0 ops rs,
      run zeroPort w0 ops = Return (rs, watching unsetTarget ["a:80"]) →
      lastUpdates (Close (watching unsetTarget ["a:80"]))
      = lastProcessed zeroPort (target w0) (lastUpdates w0) ops rs.
Proof.
  apply (error_keeps_lastUpdates zeroPort
           (watching unsetTarget ["a:80"])
           (deliver (mkEvent [noPortSubset]))
           [] (Wrapped (Errorf msgNoPort) msgConvert)
           (Close (watching unsetTarget ["a:80"]))).
  vm_compute. reflexivity.
Defined.

(** The event stream fails; the consumer calls [Next] again, the supervisor
    closes, and the consumer calls once more. *)
Lemma error_is_terminal_witness :
  ∃ rs,
    run zeroPort (Close (freshWatcher unsetTarget))
      [ callNext (deliver (mkEvent [httpSubset ["a"]]));
        callClose;
        callNext observeDone ]
    = Return (rs, Close (freshWatcher unsetTarget))
    ∧ length rs
      = countNext [ callNext (deliver (mkEvent [httpSubset ["a"]]));
                    callClose;
                    callNext observeDone ]
    ∧ Forall (λ r, ∃ e', r = ([], Some e') ∧ AlreadyStoppedError e') rs.
Proof.
  apply (error_is_terminal zeroPort
           (freshWatcher unsetTarget)
           {| sel := received {| ep := None; err := Some (External "EOF") |};
              rangeUpdated := elements; rangeLast := elements |}
           [] (Wrapped (External "EOF") msgStream)
           (Close (freshWatcher unsetTarget))
           eq_refl
           [ callNext (deliver (mkEvent [httpSubset ["a"]]));
             callClose;
             callNext observeDone ]).
Defined.

(** After [Close], [Next] returns the already-stopped error, which is not
    the cancellation error that a blocked call returns, even when the
    [select] would have taken [ctx.Done()]. *)
Lemma next_after_close_not_cancelled_error :
  Next zeroPort (Close (freshWatcher unsetTarget)) observeDone
  = Return ([], Some (Wrapped Canceled msgStopped),
            Close (freshWatcher unsetTarget))
  ∧ ¬ CancelledError (Wrapped Canceled msgStopped).
Proof. split; [reflexivity | discriminate]. Qed.

(** A run of the specification's examples: two events, a no-port event, and
    a call after the failure. *)
Example run_example :
  ∃ w,
    run zeroPort (freshWatcher unsetTarget)
      [ callNext (deliver (mkEvent [httpSubset ["a"; "b"]]));
        callNext (deliver (mkEvent [httpSubset ["b"; "c"]]));
        callNext (deliver (mkEvent [noPortSubset]));
        callNext (deliver (mkEvent [httpSubset ["d"]])) ]
    = Return ([ ([addUpdate "a:80"; addUpdate "b:80"], None);
                ([addUpdate "c:80"; deleteUpdate "a:80"], None);
                ([], Some (Wrapped (Errorf msgNoPort) msgConvert));
                ([], Some (Wrapped Canceled msgStopped)) ], w)
    ∧ cancelled w = true
    ∧ lastUpdates w = {[ "b:80"; "c:80" ]}.
Proof. eexists. split; [vm_compute; reflexivity|]. split; vm_compute; reflexivity. Qed.

(** ** The further properties at the sample inputs *)

(** Ports http:80, grpc:9090, grpc:9091 and target port "grpc": 9090. *)
Lemma named_port_first_match_witness :
  subsetToAddresses zeroPort grpcTarget (grpcSubset ["10.0.0.1"; "10.0.0.2"])
  = (["10.0.0.1:9090"; "10.0.0.2:9090"], None).
Proof.
  apply (named_port_first_match zeroPort grpcTarget
           (grpcSubset ["10.0.0.1"; "10.0.0.2"])
           [ {| Name := "http"; Port := 80 |} ]
           {| Name := "grpc"; Port := 9090 |}
           [ {| Name := "grpc"; Port := 9091 |} ]).
  - reflexivity.
  - discriminate.
  - reflexivity.
  - intros q Hq. apply list_elem_of_singleton in Hq. subst q. discriminate.
  - reflexivity.
Defined.

Lemma literal_port_ignores_subset_ports_witness :
  subsetToAddresses zeroPort literalTarget (grpcSubset ["10.0.0.1"])
  = (["10.0.0.1:8443"], None).
Proof.
  apply (literal_port_ignores_subset_ports zeroPort literalTarget
           (grpcSubset ["10.0.0.1"])).
  - discriminate.
  - discriminate.
  - reflexivity.
Defined.

(** A received value with both an event and an error. *)
Lemma stream_error_stops_watcher_witness :
  Next zeroPort (watching unsetTarget ["a:80"])
    (streamFails (Some (mkEvent [httpSubset ["b"]])) (External "EOF"))
  = Return ([], Some (Wrapped (External "EOF") msgStream),
            Close (watching unsetTarget ["a:80"]))
  ∧ EventStreamError (Wrapped (External "EOF") msgStream)
  ∧ lastUpdates (Close (watching unsetTarget ["a:80"]))
    = lastUpdates (watching unsetTarget ["a:80"]).
Proof.
  apply (stream_error_stops_watcher zeroPort
           (watching unsetTarget ["a:80"])
           (streamFails (Some (mkEvent [httpSubset ["b"]])) (External "EOF"))
           (Some (mkEvent [httpSubset ["b"]])) (External "EOF")).
  - reflexivity.
  - reflexivity.
Defined.

Lemma cancellation_in_flight_witness :
  Next zeroPort (watching unsetTarget ["a:80"]) observeDone
  = Return ([], Some Canceled, Close (watching unsetTarget ["a:80"]))
  ∧ lastUpdates (Close (watching unsetTarget ["a:80"]))
    = lastUpdates (watching unsetTarget ["a:80"])
  ∧ run zeroPort (Close (watching unsetTarget ["a:80"]))
      [ callNext (deliver (mkEvent [httpSubset ["b"]])); callClose ]
    = Return (replicate
                (countNext [ callNext (deliver (mkEvent [httpSubset ["b"]]));
                             callClose ])
                stoppedResult,
              Close (watching unsetTarget ["a:80"])).
Proof.
  apply (cancellation_in_flight zeroPort
           (watching unsetTarget ["a:80"]) observeDone
           [ callNext (deliver (mkEvent [httpSubset ["b"]])); callClose ]).
  - reflexivity.
  - reflexivity.
Defined.

Lemma first_event_adds_everything_witness :
  (None : option error) = None
  ∧ (startNewWatcher unsetTarget None).2 = None
  ∧ Active (freshWatcher unsetTarget)
  ∧ [addUpdate "a:80"; addUpdate "b:80"]
    ≡ₚ addUpdate
       <$> elements (eventAddresses zeroPort unsetTarget
                       (mkEvent [httpSubset ["a"; "b"]]))
  ∧ lastUpdates (watching unsetTarget ["a:80"; "b:80"])
    = eventAddresses zeroPort unsetTarget (mkEvent [httpSubset ["a"; "b"]]).
Proof.
  apply (first_event_adds_everything zeroPort unsetTarget None
           (freshWatcher unsetTarget)
           (deliver (mkEvent [httpSubset ["a"; "b"]]))
           (mkEvent [httpSubset ["a"; "b"]])
           [addUpdate "a:80"; addUpdate "b:80"]
           (watching unsetTarget ["a:80"; "b:80"])).
  - reflexivity.
  - apply deliver_valid.
  - reflexivity.
  - vm_compute. reflexivity.
Defined.

Lemma success_is_event_snapshot_witness :
  Active (watching unsetTarget ["b:80"; "c:80"])
  ∧ target (watching unsetTarget ["b:80"; "c:80"])
    = target (watching unsetTarget ["a:80"; "b:80"])
  ∧ ∀ a, a ∈ lastUpdates (watching unsetTarget ["b:80"; "c:80"])
         ↔ ∃ sub, sub ∈ Subsets (Object (mkEvent [httpSubset ["b"; "c"]]))
                  ∧ a ∈ (subsetToAddresses zeroPort
                           (target (watching unsetTarget ["a:80"; "b:80"]))
                           sub).1.
Proof.
  apply (success_is_event_snapshot zeroPort
           (watching unsetTarget ["a:80"; "b:80"])
           (deliver (mkEvent [httpSubset ["b"; "c"]]))
           (mkEvent [httpSubset ["b"; "c"]])
           [addUpdate "c:80"; deleteUpdate "a:80"]).
  - reflexivity.
  - vm_compute. reflexivity.
Defined.

Lemma unset_port_is_per_subset_witness :
  "c:80" ∈ lastUpdates (watching unsetTarget ["b:80"; "c:80"])
  ↔ ∃ sub p0 ps addr,
      sub ∈ Subsets (Object (mkEvent [httpSubset ["b"; "c"]]))
      ∧ Ports sub = p0 :: ps
      ∧ addr ∈ Addresses sub
      ∧ "c:80" = JoinHostPort (IP addr) (Itoa (Port p0)).
Proof.
  apply (unset_port_is_per_subset zeroPort
           (watching unsetTarget ["a:80"; "b:80"])
           (deliver (mkEvent [httpSubset ["b"; "c"]]))
           (mkEvent [httpSubset ["b"; "c"]])
           [addUpdate "c:80"; deleteUpdate "a:80"]
           (watching unsetTarget ["b:80"; "c:80"])).
  - reflexivity.
  - reflexivity.
  - vm_compute. reflexivity.
Defined.

Lemma batch_replay_witness :
  applyBatch (lastUpdates (watching unsetTarget ["a:80"; "b:80"]))
    [addUpdate "c:80"; deleteUpdate "a:80"]
  = lastUpdates (watching unsetTarget ["b:80"; "c:80"]).
Proof.
  apply (batch_replay zeroPort
           (watching unsetTarget ["a:80"; "b:80"])
           (deliverRev (mkEvent [httpSubset ["b"; "c"]]))
           [addUpdate "c:80"; deleteUpdate "a:80"] None
           (watching unsetTarget ["b:80"; "c:80"])).
  - apply deliverRev_valid.
  - vm_compute. reflexivity.
Defined.

Lemma run_replay_witness :
  foldl applyBatch (lastUpdates (freshWatcher unsetTarget))
    [ ([addUpdate "a:80"; addUpdate "b:80"], None);
      ([addUpdate "c:80"; deleteUpdate "a:80"], None);
      ([], Some (Wrapped (Errorf msgNoPort) msgConvert));
      ([], Some (Wrapped Canceled msgStopped)) ].*1
  = lastUpdates (Close (watching unsetTarget ["b:80"; "c:80"])).
Proof.
  apply (run_replay zeroPort
           (freshWatcher unsetTarget)
           [ callNext (deliver (mkEvent [httpSubset ["a"; "b"]]));
             callNext (deliver (mkEvent [httpSubset ["b"; "c"]]));
             callNext (deliver (mkEvent [noPortSubset]));
             callNext (deliver (mkEvent [httpSubset ["d"]])) ]).
  - repeat constructor; apply deliver_valid.
  - vm_compute. reflexivity.
Defined.

Lemma empty_batch_iff_unchanged_witness :
  [addUpdate "c:80"; deleteUpdate "a:80"] = []
  ↔ lastUpdates (watching unsetTarget ["b:80"; "c:80"])
    = lastUpdates (watching unsetTarget ["a:80"; "b:80"]).
Proof.
  apply (empty_batch_iff_unchanged zeroPort
           (watching unsetTarget ["a:80"; "b:80"])
           (deliver (mkEvent [httpSubset ["b"; "c"]]))).
  - apply deliver_valid.
  - vm_compute. reflexivity.
Defined.

Lemma adds_before_deletes_witness :
  (∀ i j u v,
     [addUpdate "c:80"; deleteUpdate "a:80"] !! i = Some u →
     [addUpdate "c:80"; deleteUpdate "a:80"] !! j = Some v →
     naming.Op u = naming.Add → naming.Op v = naming.Delete → i < j)
  ∧ ∀ u, u ∈ [addUpdate "c:80"; deleteUpdate "a:80"] →
         naming.Metadata u
         = match naming.Op u with
           | naming.Add => Some ()
           | naming.Delete => None
           end.
Proof.
  apply (adds_before_deletes zeroPort
           (watching unsetTarget ["a:80"; "b:80"])
           (deliver (mkEvent [httpSubset ["b"; "c"]]))
           [addUpdate "c:80"; deleteUpdate "a:80"]
           (watching unsetTarget ["b:80"; "c:80"])).
  vm_compute. reflexivity.
Defined.

(** The subsets [a], [b, c] and [b, c], [a]. *)
Lemma subset_order_irrelevant_witness :
  ∃ us2,
    Next zeroPort (watching unsetTarget ["b:80"])
      (deliverRev (mkEvent [httpSubset ["b"; "c"]; httpSubset ["a"]]))
    = Return (us2, None, watching unsetTarget ["a:80"; "b:80"; "c:80"])
    ∧ [addUpdate "c:80"; addUpdate "a:80"] ≡ₚ us2.
Proof.
  apply (subset_order_irrelevant zeroPort
           (watching unsetTarget ["b:80"])
           (deliver (mkEvent [httpSubset ["a"]; httpSubset ["b"; "c"]]))
           (deliverRev (mkEvent [httpSubset ["b"; "c"]; httpSubset ["a"]]))
           (mkEvent [httpSubset ["a"]; httpSubset ["b"; "c"]])
           (mkEvent [httpSubset ["b"; "c"]; httpSubset ["a"]])).
  - reflexivity.
  - apply deliver_valid.
  - apply deliverRev_valid.
  - reflexivity.
  - reflexivity.
  - apply Permutation_swap.
  - vm_compute. reflexivity.
Defined.

(** [Next] panics on a received value that carries nothing. *)
Example Next_panics_on_nil_result :
  Next zeroPort (freshWatcher unsetTarget) nilResult = Panic.
Proof. reflexivity. Qed.
